(** * A shallow embedding of the chat backend's connection manager

    The program is a single Python module, [main.py]: a FastAPI application
    with one [ConnectionManager] (a set of live WebSockets with [connect],
    [disconnect], [send_personal_message] and [broadcast]) and one WebSocket
    endpoint that drives it.

    The embedding follows one coroutine at a time, from its call to its
    end, with no other coroutine running in between.  The manager's set is
    a [gset] of connection identities; everything a coroutine does to a
    WebSocket (accept, send, receive, close) is appended to a [trace]
    together with its outcome, and whether such an operation succeeds is
    decided by a [Transport], which sees the whole history.  A coroutine is
    a function from the world to a result (a value or a raised exception)
    and the next world.  The order in which a Python set is iterated is
    not fixed; here it is the order of [elements], and no statement below
    depends on it. *)

From stdpp Require Import gmap strings list.

(** ** Data model *)

(** A WebSocket object is known to the manager only through its identity:
    Starlette's connections hash and compare as [object] does, so set
    membership and [conn is exclude] agree. *)
Abbreviation WebSocket := nat (only parsing).

(** The exceptions ([Exception] subclasses) that the socket operations
    raise.  The endpoint tells [WebSocketDisconnect] from all the others. *)
Inductive Exn : Type :=
  | WebSocketDisconnect
  | RuntimeError (what : string).

(** What a coroutine did to a WebSocket, with what came of it. *)
Inductive Event : Type :=
  | EvAccept (ws : WebSocket) (raised : option Exn)
  | EvSendText (ws : WebSocket) (message : string) (raised : option Exn)
  | EvReceiveText (ws : WebSocket) (got : string + Exn)
  | EvClose (ws : WebSocket) (raised : option Exn).

(** The records written through [log]. *)
Inductive LogRecord : Type :=
  | LogInfo (fmt : string) (arg : nat)
  | LogException (fmt : string) (e : Exn).

(** The peer and the network: the outcome of each socket operation, given
    everything that happened before it. *)
Record Transport : Type := {
  accept_outcome : list Event -> WebSocket -> option Exn;
  send_text_outcome : list Event -> WebSocket -> string -> option Exn;
  receive_text_outcome : list Event -> WebSocket -> string + Exn;
  close_outcome : list Event -> WebSocket -> option Exn
}.

(** [manager.active_connections], the socket history and the log. *)
Record World : Type := {
  active_connections : gset nat;
  trace : list Event;
  journal : list LogRecord
}.

Definition empty_world : World :=
  {| active_connections := ∅; trace := []; journal := [] |}.

Definition emit (ev : Event) (w : World) : World :=
  {| active_connections := active_connections w;
     trace := trace w ++ [ev];
     journal := journal w |}.

Definition write_log (r : LogRecord) (w : World) : World :=
  {| active_connections := active_connections w;
     trace := trace w;
     journal := journal w ++ [r] |}.

Definition set_active (s : gset nat) (w : World) : World :=
  {| active_connections := s; trace := trace w; journal := journal w |}.

(** ** Coroutines: state passing with exceptions *)

Inductive Result (A : Type) : Type :=
  | Normal (a : A)
  | Raised (e : Exn).
Arguments Normal {A} a.
Arguments Raised {A} e.

Definition Coro (A : Type) : Type := World -> Result A * World.

Definition ret {A} (a : A) : Coro A := fun w => (Normal a, w).

Definition raise {A} (e : Exn) : Coro A := fun w => (Raised e, w).

Definition bind {A B} (c : Coro A) (k : A -> Coro B) : Coro B :=
  fun w =>
    match c w with
    | (Normal a, w1) => k a w1
    | (Raised e, w1) => (Raised e, w1)
    end.

Declare Scope coro_scope.
Delimit Scope coro_scope with coro.
Notation "x <- c ;; k" := (bind c (fun x => k))
  (at level 100, c at next level, right associativity) : coro_scope.
Notation "c ;; k" := (bind c (fun _ => k))
  (at level 100, k at level 200, right associativity) : coro_scope.
Open Scope coro_scope.

(** [try: body except Exception as e: handler(e)] *)
Definition try_except {A} (body : Coro A) (handler : Exn -> Coro A) : Coro A :=
  fun w =>
    match body w with
    | (Normal a, w1) => (Normal a, w1)
    | (Raised e, w1) => handler e w1
    end.

(** [try: body finally: cleanup]: the cleanup always runs; what the body
    raised is raised again after it, unless the cleanup raises itself. *)
Definition try_finally {A} (body : Coro A) (cleanup : Coro unit) : Coro A :=
  fun w =>
    match body w with
    | (r, w1) =>
        match cleanup w1 with
        | (Normal _, w2) => (r, w2)
        | (Raised e, w2) => (Raised e, w2)
        end
    end.

Definition of_outcome (o : option Exn) : Result unit :=
  match o with
  | None => Normal tt
  | Some e => Raised e
  end.

(** [asyncio.gather]: every awaitable is run to its end, in the order
    given (the order in which the event loop starts the tasks), whatever
    the others do.  With [return_exceptions] an exception is one more
    entry of the result list; without it the first one is raised in the
    awaiting coroutine. *)
Fixpoint settle_all {A} (aws : list (Coro A)) (w : World)
  : list (Result A) * World :=
  match aws with
  | [] => ([], w)
  | c :: rest =>
      match c w with
      | (r, w1) =>
          match settle_all rest w1 with
          | (rs, w2) => (r :: rs, w2)
          end
      end
  end.

Fixpoint first_exception {A} (rs : list (Result A)) : option Exn :=
  match rs with
  | [] => None
  | Raised e :: _ => Some e
  | Normal _ :: rest => first_exception rest
  end.

Definition gather {A} (return_exceptions : bool) (aws : list (Coro A))
  : Coro (list (Result A)) :=
  fun w =>
    match settle_all aws w with
    | (rs, w1) =>
        if return_exceptions then (Normal rs, w1)
        else match first_exception rs with
             | Some e => (Raised e, w1)
             | None => (Normal rs, w1)
             end
    end.

(** ** The program *)

Section Program.

Variable T : Transport.

(** *** The WebSocket methods the program calls *)

Definition accept (ws : WebSocket) : Coro unit :=
  fun w =>
    let o := accept_outcome T (trace w) ws in
    (of_outcome o, emit (EvAccept ws o) w).

Definition send_text (ws : WebSocket) (message : string) : Coro unit :=
  fun w =>
    let o := send_text_outcome T (trace w) ws message in
    (of_outcome o, emit (EvSendText ws message o) w).

Definition receive_text (ws : WebSocket) : Coro string :=
  fun w =>
    let o := receive_text_outcome T (trace w) ws in
    (match o with inl data => Normal data | inr e => Raised e end,
     emit (EvReceiveText ws o) w).

Definition close (ws : WebSocket) : Coro unit :=
  fun w =>
    let o := close_outcome T (trace w) ws in
    (of_outcome o, emit (EvClose ws o) w).

(** *** [log.info] and [log.exception] *)

Definition log_info (fmt : string) (arg : nat) : Coro unit :=
  fun w => (Normal tt, write_log (LogInfo fmt arg) w).

Definition log_exception (fmt : string) (e : Exn) : Coro unit :=
  fun w => (Normal tt, write_log (LogException fmt e) w).

(** *** [class ConnectionManager] *)

(** [list(self.active_connections)] *)
Definition Snapshot (w : World) : list nat :=
  elements (active_connections w).

(** [self.active_connections.add(websocket)] *)
Definition set_add (ws : WebSocket) : Coro unit :=
  fun w => (Normal tt, set_active ({[ws]} ∪ active_connections w) w).

(** [self.active_connections.discard(websocket)] *)
Definition set_discard (ws : WebSocket) : Coro unit :=
  fun w => (Normal tt, set_active (active_connections w ∖ {[ws]}) w).

(** [len(self.active_connections)] *)
Definition active_count : Coro nat :=
  fun w => (Normal (size (active_connections w)), w).

Definition connect (websocket : WebSocket) : Coro unit :=
  accept websocket ;;
  set_add websocket ;;
  n <- active_count ;;
  log_info "Client connected. Active=%d" n.

Definition disconnect (websocket : WebSocket) : Coro unit :=
  set_discard websocket ;;
  n <- active_count ;;
  log_info "Client disconnected. Active=%d" n.

Definition send_personal_message (message : string) (websocket : WebSocket)
  : Coro unit :=
  send_text websocket message.

(** [exclude is not None and conn is exclude] *)
Definition is_excluded (exclude : option nat) (conn : WebSocket) : bool :=
  match exclude with
  | Some x => bool_decide (conn = x)
  | None => false
  end.

(** The [for] loop of [broadcast]: the coroutine objects are only
    created here, none of them runs before [gather] takes them. *)
Definition collect_send_tasks (message : string) (exclude : option nat)
    (snapshot : list nat) : list (Coro unit) :=
  foldl (fun send_tasks conn =>
           if is_excluded exclude conn then send_tasks
           else send_tasks ++ [send_text conn message])
        [] snapshot.

Definition broadcast (message : string) (exclude : option nat) : Coro unit :=
  fun w =>
    if bool_decide (active_connections w = ∅) then (Normal tt, w)
    else
      let send_tasks := collect_send_tasks message exclude (Snapshot w) in
      match send_tasks with
      | [] => (Normal tt, w)
      | _ :: _ =>
          try_except
            (gather true send_tasks ;; ret tt)
            (fun e => log_exception "Broadcast error: %s" e)
            w
      end.

(** *** [websocket_endpoint] *)

(** One turn of [while True]. *)
Definition serve_message (websocket : WebSocket) (client_id : string)
  : Coro unit :=
  data <- receive_text websocket ;;
  send_personal_message ("You wrote: " +:+ data) websocket ;;
  broadcast ("Client #" +:+ client_id +:+ " says: " +:+ data)
            (Some websocket).

(** A coroutine either is still inside its loop when the observation
    ends or has returned. *)
Inductive Progress : Type := Running | Returned.

(** [while True: ...], observed for [turns] turns.  The loop has no
    [break]: it ends only by an exception. *)
Fixpoint message_loop (turns : nat) (websocket : WebSocket)
    (client_id : string) : Coro Progress :=
  match turns with
  | 0 => ret Running
  | S n =>
      serve_message websocket client_id ;;
      message_loop n websocket client_id
  end.

Definition on_exception (websocket : WebSocket) (client_id : string)
    (e : Exn) : Coro Progress :=
  match e with
  | WebSocketDisconnect =>
      disconnect websocket ;;
      broadcast ("Client #" +:+ client_id +:+ " left the chat") None ;;
      ret Returned
  | _ =>
      log_exception "Unexpected error: %s" e ;;
      try_finally
        (close websocket)
        (disconnect websocket ;;
         broadcast ("Client #" +:+ client_id +:+ " left the chat(error)")
                   None) ;;
      ret Returned
  end.

Definition websocket_endpoint (turns : nat) (websocket : WebSocket)
    (client_id : string) : Coro Progress :=
  connect websocket ;;
  try_except
    (broadcast ("Client #" +:+ client_id +:+ " joined") None ;;
     message_loop turns websocket client_id)
    (on_exception websocket client_id).

End Program.

(** *** [health] *)

(** The values of the dictionary that [health] returns. *)
Inductive Json : Type :=
  | JString (s : string)
  | JNumber (n : nat).

(** [GET /]: a dictionary, in the order in which its keys are written. *)
Definition health (w : World) : list (string * Json) :=
  [("status", JString "ok");
   ("clients", JNumber (size (active_connections w)))].

(** ** Vocabulary of the statements *)

(** What a run added to the socket history. *)
Definition new_events (w w' : World) : list Event :=
  drop (length (trace w)) (trace w').

Definition add_events (evs : list Event) (w : World) : World :=
  {| active_connections := active_connections w;
     trace := trace w ++ evs;
     journal := journal w |}.

Fixpoint count_events (p : Event -> bool) (evs : list Event) : nat :=
  match evs with
  | [] => 0
  | ev :: rest => (if p ev then 1 else 0) + count_events p rest
  end.

(** A write to [c], of whatever text. *)
Definition is_write_to (c : nat) (ev : Event) : bool :=
  match ev with
  | EvSendText ws _ _ => bool_decide (ws = c)
  | _ => false
  end.

(** A write of [message] to [c]. *)
Definition is_write_of (c : nat) (message : string) (ev : Event) : bool :=
  match ev with
  | EvSendText ws m _ => bool_decide (ws = c) && bool_decide (m = message)
  | _ => false
  end.

(** A write of [message] to [c] that the transport carried out. *)
Definition is_delivery_of (c : nat) (message : string) (ev : Event) : bool :=
  match ev with
  | EvSendText ws m None => bool_decide (ws = c) && bool_decide (m = message)
  | _ => false
  end.

(** A write of [message] to [c] that raised. *)
Definition is_failure_of (c : nat) (message : string) (ev : Event) : bool :=
  match ev with
  | EvSendText ws m (Some _) => bool_decide (ws = c) && bool_decide (m = message)
  | _ => false
  end.

Definition is_write (ev : Event) : bool :=
  match ev with
  | EvSendText _ _ _ => true
  | _ => false
  end.

Definition writes_to (c : nat) : list Event -> nat :=
  count_events (is_write_to c).
Definition writes_of (c : nat) (message : string) : list Event -> nat :=
  count_events (is_write_of c message).
Definition deliveries_of (c : nat) (message : string) : list Event -> nat :=
  count_events (is_delivery_of c message).
Definition failures_of (c : nat) (message : string) : list Event -> nat :=
  count_events (is_failure_of c message).
Definition other_events : list Event -> nat :=
  count_events (fun ev => negb (is_write ev)).

(** The connections of a snapshot that [broadcast] writes to. *)
Definition eligible (exclude : option nat) (snapshot : list nat) : list nat :=
  filter (fun c => is_excluded exclude c = false) snapshot.

(** The writes of one fan-out, each with the outcome the transport gives it
    at the moment it is made. *)
Fixpoint fanout (T : Transport) (h : list Event) (message : string)
    (targets : list nat) : list Event :=
  match targets with
  | [] => []
  | c :: rest =>
      let ev := EvSendText c message (send_text_outcome T h c message) in
      ev :: fanout T (h ++ [ev]) message rest
  end.

(** *** Calls on the registry *)

(** A call of the transport layer on the registry. *)
Inductive Call : Type :=
  | Connect (ws : nat)
  | Disconnect (ws : nat).

#[global] Instance Call_eq_dec : EqDecision Call.
Proof. solve_decision. Defined.

Definition target (call : Call) : nat :=
  match call with
  | Connect ws => ws
  | Disconnect ws => ws
  end.

Definition perform (T : Transport) (call : Call) : Coro unit :=
  match call with
  | Connect ws => connect T ws
  | Disconnect ws => disconnect ws
  end.

(** The calls are made one after the other, whatever each of them
    returns; the result of each is kept next to it. *)
Fixpoint run_calls (T : Transport) (calls : list Call) (w : World)
  : list (Call * Result unit) * World :=
  match calls with
  | [] => ([], w)
  | call :: rest =>
      match perform T call w with
      | (r, w1) =>
          match run_calls T rest w1 with
          | (log, w2) => ((call, r) :: log, w2)
          end
      end
  end.

(** The calls that returned normally. *)
Definition completed (log : list (Call * Result unit)) : list Call :=
  omap (fun entry =>
          match entry.2 with
          | Normal _ => Some entry.1
          | Raised _ => None
          end) log.

(** In the words of the specification: [c] has been connected and not
    subsequently disconnected. *)
Definition still_connected (c : nat) (calls : list Call) : Prop :=
  exists before after,
    calls = before ++ Connect c :: after /\ Disconnect c ∉ after.

Fixpoint still_connected_b (c : nat) (calls : list Call) : bool :=
  match calls with
  | [] => false
  | call :: rest =>
      still_connected_b c rest
      || (bool_decide (call = Connect c) && bool_decide (Disconnect c ∉ rest))
  end.

(** The distinct identities that are still connected after [calls]. *)
Definition live_identities (calls : list Call) : list nat :=
  filter (fun c => still_connected_b c calls = true)
         (remove_dups (target <$> calls)).

(** *** The order of a connection's own operations *)

(** A write of [message] made by a broadcast that excludes [ws]. *)
Definition broadcast_write (ws : nat) (message : string) (ev : Event) : Prop :=
  exists c o, ev = EvSendText c message o /\ c <> ws.

(** The socket history of the message loop of connection [ws]: turn after
    turn, a read, then the echo to [ws], then the writes of the broadcast
    to the others; the history ends between two turns, or with a read that
    raised, or with an echo that raised. *)
Inductive served_in_order (ws : nat) (client_id : string)
  : list Event -> Prop :=
  | sio_between_turns :
      served_in_order ws client_id []
  | sio_read_raised e :
      served_in_order ws client_id [EvReceiveText ws (inr e)]
  | sio_echo_raised data e :
      served_in_order ws client_id
        [EvReceiveText ws (inl data);
         EvSendText ws ("You wrote: " +:+ data) (Some e)]
  | sio_turn data fan rest :
      Forall (broadcast_write ws
                ("Client #" +:+ client_id +:+ " says: " +:+ data)) fan ->
      served_in_order ws client_id rest ->
      served_in_order ws client_id
        (EvReceiveText ws (inl data)
           :: EvSendText ws ("You wrote: " +:+ data) None
           :: fan ++ rest).

(** *** Leaving *)

(** The departure notice that the endpoint broadcasts after [e] ended its
    loop. *)
Definition departure_text (client_id : string) (e : Exn) : string :=
  match e with
  | WebSocketDisconnect => "Client #" +:+ client_id +:+ " left the chat"
  | _ => "Client #" +:+ client_id +:+ " left the chat(error)"
  end.

(** A close of [ws], whatever came of it. *)
Definition is_close_of (ws : nat) (ev : Event) : bool :=
  match ev with
  | EvClose x _ => bool_decide (x = ws)
  | _ => false
  end.

(** The close that the endpoint attempts after [e] ended its loop, with
    its outcome in the history [h]: none after a disconnect. *)
Definition closing_events (T : Transport) (ws : nat) (e : Exn)
    (h : list Event) : list Event :=
  match e with
  | WebSocketDisconnect => []
  | _ => [EvClose ws (close_outcome T h ws)]
  end.


(** ** Concrete scenarios *)

(** Three connections [conn_A], [conn_B], [conn_C] and a newcomer
    [conn_D]. *)
Definition conn_A : nat := 1.
Definition conn_B : nat := 2.
Definition conn_C : nat := 3.
Definition conn_D : nat := 4.

(** A transport on which every operation succeeds and the peer says "hi"
    until the history holds [n] events, then closes. *)
Definition talkative (n : nat) : Transport :=
  {| accept_outcome := fun _ _ => None;
     send_text_outcome := fun _ _ _ => None;
     receive_text_outcome := fun h _ =>
       if bool_decide (length h < n) then inl "hi"
       else inr WebSocketDisconnect;
     close_outcome := fun _ _ => None |}.

Definition reliable : Transport := talkative 0.

(** As [talkative], but every write to [conn_B] raises. *)
Definition B_is_dead (n : nat) : Transport :=
  {| accept_outcome := fun _ _ => None;
     send_text_outcome := fun _ ws _ =>
       if bool_decide (ws = conn_B) then Some (RuntimeError "socket is dead")
       else None;
     receive_text_outcome := fun h _ =>
       if bool_decide (length h < n) then inl "hi"
       else inr WebSocketDisconnect;
     close_outcome := fun _ _ => None |}.

(** The handshake of [ws] has been completed in the history [h]. *)
Fixpoint handshake_completed (ws : nat) (h : list Event) : bool :=
  match h with
  | [] => false
  | EvAccept x None :: rest =>
      bool_decide (x = ws) || handshake_completed ws rest
  | _ :: rest => handshake_completed ws rest
  end.

(** The reading of C6 that the code is held against: once the transport
    has completed the handshake of [ws], all that [connect] does to the
    registry is to add [ws], and it does nothing to the connection. *)
Definition connect_only_registers (T : Transport) (ws : nat) (w : World)
  : Prop :=
  handshake_completed ws (trace w) = true ->
  active_connections (connect T ws w).2 = {[ws]} ∪ active_connections w
  /\ trace (connect T ws w).2 = trace w.

(** As [reliable], but with Starlette's state check: a socket is accepted
    once, a second [accept] raises. *)
Definition accept_once : Transport :=
  {| accept_outcome := fun h ws =>
       if handshake_completed ws h
       then Some (RuntimeError "unexpected websocket.accept")
       else None;
     send_text_outcome := fun _ _ _ => None;
     receive_text_outcome := fun _ _ => inr WebSocketDisconnect;
     close_outcome := fun _ _ => None |}.

(** A and B join, A is connected a second time, B leaves, C is
    disconnected without having joined and joins afterwards. *)
Definition busy_evening : list Call :=
  [Connect conn_A; Connect conn_B; Connect conn_A; Disconnect conn_B;
   Disconnect conn_C; Connect conn_C].

Definition room_ABC : World :=
  set_active {[conn_A; conn_B; conn_C]} empty_world.

(** [conn_D] has been accepted by the server already, and is not
    registered yet. *)
Definition D_accepted : World := emit (EvAccept conn_D None) empty_world.


(** Only A is in the room. *)
Definition room_A : World := set_active {[conn_A]} empty_world.

(** ** Basic facts *)

(** Membership in a list that is given element by element. *)
Ltac in_list :=
  repeat first [apply list_elem_of_here | apply list_elem_of_further].

Lemma add_events_nil w : add_events [] w = w.
Proof. destruct w; unfold add_events; simpl. by rewrite app_nil_r. Qed.

Lemma add_events_app evs1 evs2 w :
  add_events evs2 (add_events evs1 w) = add_events (evs1 ++ evs2) w.
Proof. unfold add_events; simpl. by rewrite app_assoc. Qed.

Lemma emit_add_events ev w : emit ev w = add_events [ev] w.
Proof. reflexivity. Qed.

Lemma new_events_add_events evs w : new_events w (add_events evs w) = evs.
Proof. unfold new_events; simpl. by rewrite drop_app_length. Qed.

Lemma count_events_app p evs1 evs2 :
  count_events p (evs1 ++ evs2) = count_events p evs1 + count_events p evs2.
Proof. induction evs1 as [|ev evs1 IH]; simpl; [done | rewrite IH; lia]. Qed.

Section FanOut.

Variable T : Transport.

Lemma collect_send_tasks_eligible message exclude snapshot :
  collect_send_tasks T message exclude snapshot
  = (fun c => send_text T c message) <$> eligible exclude snapshot.
Proof.
  unfold collect_send_tasks, eligible.
  enough (forall acc,
    foldl (fun send_tasks conn =>
             if is_excluded exclude conn then send_tasks
             else send_tasks ++ [send_text T conn message])
          acc snapshot
    = acc ++ ((fun c => send_text T c message)
                <$> filter (fun c => is_excluded exclude c = false) snapshot))
    as H by apply (H []).
  induction snapshot as [|c l IH]; intros acc; simpl.
  - by rewrite app_nil_r.
  - rewrite IH, filter_cons.
    destruct (is_excluded exclude c) eqn:E; case_decide; try congruence.
    by rewrite fmap_cons, <- app_assoc.
Qed.

Lemma settle_all_send_text message targets w :
  (settle_all ((fun c => send_text T c message) <$> targets) w).2
  = add_events (fanout T (trace w) message targets) w.
Proof.
  revert w. induction targets as [|c l IH]; intros w; simpl.
  - by rewrite add_events_nil.
  - specialize (IH (emit (EvSendText c message
                            (send_text_outcome T (trace w) c message)) w)).
    destruct (settle_all _ _) as [rs w2]; simpl in *.
    rewrite IH, emit_add_events, add_events_app. done.
Qed.

(** [broadcast] in one equation: it returns normally, and what it leaves
    behind is the fan-out over the eligible part of the snapshot. *)
Lemma broadcast_eq message exclude w :
  broadcast T message exclude w
  = (Normal tt,
     add_events (fanout T (trace w) message (eligible exclude (Snapshot w)))
                w).
Proof.
  unfold broadcast. case_bool_decide as Hempty.
  - unfold Snapshot. rewrite Hempty, elements_empty. simpl.
    by rewrite add_events_nil.
  - rewrite collect_send_tasks_eligible.
    pose proof (settle_all_send_text message
                  (eligible exclude (Snapshot w)) w) as H.
    destruct (eligible exclude (Snapshot w)) as [|c l].
    + simpl. by rewrite add_events_nil.
    + rewrite fmap_cons in *.
      unfold try_except, bind, gather, ret.
      destruct (settle_all _ w) as [rs w1]. simpl in H. by subst w1.
Qed.

Lemma fanout_writes_of h message targets c :
  writes_of c message (fanout T h message targets)
  = length (filter (fun x => x = c) targets).
Proof.
  revert h. induction targets as [|x l IH]; intros h; [done|].
  unfold writes_of in *. simpl. rewrite IH, filter_cons.
  case_bool_decide; case_bool_decide; case_decide; simpl; congruence.
Qed.

Lemma fanout_writes_to h message targets c :
  writes_to c (fanout T h message targets)
  = writes_of c message (fanout T h message targets).
Proof.
  revert h. induction targets as [|x l IH]; intros h; [done|].
  unfold writes_to, writes_of in *. simpl. rewrite IH.
  case_bool_decide; case_bool_decide; simpl; congruence.
Qed.

Lemma fanout_other_events h message targets :
  other_events (fanout T h message targets) = 0.
Proof.
  revert h. induction targets as [|x l IH]; intros h; [done|].
  unfold other_events in *. simpl. by rewrite IH.
Qed.

Lemma fanout_settled h message targets c :
  deliveries_of c message (fanout T h message targets)
  + failures_of c message (fanout T h message targets)
  = writes_of c message (fanout T h message targets).
Proof.
  revert h. induction targets as [|x l IH]; intros h; [done|].
  unfold deliveries_of, failures_of, writes_of in *. simpl.
  rewrite <- IH.
  destruct (send_text_outcome T h x message);
    case_bool_decide; case_bool_decide; simpl; lia.
Qed.

End FanOut.

Lemma count_in_NoDup (l : list nat) c :
  NoDup l ->
  length (filter (fun x => x = c) l) = if bool_decide (c ∈ l) then 1 else 0.
Proof.
  induction 1 as [|x l Hx Hl IH]; [done|].
  rewrite filter_cons. destruct (decide (x = c)) as [->|Hc].
  - simpl. rewrite IH.
    rewrite (bool_decide_eq_false_2 _ Hx).
    rewrite bool_decide_eq_true_2; [done | by left].
  - rewrite IH. rewrite (bool_decide_ext (c ∈ x :: l) (c ∈ l)); [done|].
    rewrite elem_of_cons. split; [intros [->|?]; done | by right].
Qed.

Lemma eligible_NoDup exclude w : NoDup (eligible exclude (Snapshot w)).
Proof. unfold eligible, Snapshot. apply NoDup_filter. apply NoDup_elements. Qed.

Lemma elem_of_eligible exclude w c :
  c ∈ eligible exclude (Snapshot w)
  <-> c ∈ active_connections w /\ exclude <> Some c.
Proof.
  unfold eligible, Snapshot. rewrite list_elem_of_filter, elem_of_elements.
  destruct exclude as [x|]; simpl.
  - rewrite bool_decide_eq_false. split; intros [H1 H2]; split; congruence.
  - split; intros [H1 H2]; split; done.
Qed.

(** ** The broadcast engine *)

(** C1.  Whatever the message, the registered connections and the
    [exclude] argument, [broadcast] initiates exactly one write of the
    message to every connection of the snapshot other than [exclude], and
    nothing else: no write to [exclude], none to a connection outside the
    snapshot, no write of another text and no other socket operation. *)
Theorem broadcast_one_write_per_eligible_connection
    (T : Transport) (message : string) (exclude : option nat)
    (w : World) (c : nat) :
  let w' := (broadcast T message exclude w).2 in
  let evs := new_events w w' in
  trace w' = trace w ++ evs
  /\ writes_of c message evs
     = (if bool_decide (c ∈ Snapshot w /\ exclude <> Some c) then 1 else 0)
  /\ writes_to c evs = writes_of c message evs
  /\ other_events evs = 0
  /\ match exclude with
     | Some x => writes_to x evs = 0
     | None => True
     end.
Proof.
  intros w' evs. subst w' evs. rewrite broadcast_eq. simpl snd.
  rewrite new_events_add_events.
  assert (forall x,
    writes_of x message
      (fanout T (trace w) message (eligible exclude (Snapshot w)))
    = if bool_decide (x ∈ Snapshot w /\ exclude <> Some x) then 1 else 0)
    as Hcount.
  { intros x. rewrite fanout_writes_of, count_in_NoDup
      by apply eligible_NoDup.
    rewrite (bool_decide_ext _ (x ∈ Snapshot w /\ exclude <> Some x)); [done|].
    rewrite elem_of_eligible. unfold Snapshot.
    by rewrite elem_of_elements. }
  repeat split.
  - apply Hcount.
  - apply fanout_writes_to.
  - apply fanout_other_events.
  - destruct exclude as [x|]; [|done].
    rewrite fanout_writes_to, Hcount.
    rewrite bool_decide_eq_false_2; [done|]. intros [_ H]. by apply H.
Qed.

(** The scenario of the test plan: with A, B and C registered,
    [broadcast("m", exclude=A)] writes "m" once to B, once to C and never
    to A. *)
Example broadcast_ABC_excluding_A :
  let evs := new_events room_ABC
               (broadcast reliable "m" (Some conn_A) room_ABC).2 in
  deliveries_of conn_B "m" evs = 1
  /\ deliveries_of conn_C "m" evs = 1
  /\ writes_to conn_A evs = 0
  /\ length evs = 2.
Proof. vm_compute. done. Qed.

(** C2.  When the write to one connection [b] raises during a broadcast,
    every other connection of the snapshot that is not excluded still gets
    its write, and the call returns normally. *)
Theorem broadcast_contains_a_failed_write
    (T : Transport) (message : string) (exclude : option nat)
    (w : World) (b : nat) (e : Exn) (c : nat) :
  let out := broadcast T message exclude w in
  let evs := new_events w out.2 in
  EvSendText b message (Some e) ∈ evs ->
  c ∈ Snapshot w -> exclude <> Some c -> c <> b ->
  out.1 = Normal tt /\ writes_of c message evs = 1.
Proof.
  intros out evs _ Hc Hex _. subst out evs. rewrite broadcast_eq. simpl.
  split; [done|]. rewrite new_events_add_events.
  rewrite fanout_writes_of, count_in_NoDup by apply eligible_NoDup.
  rewrite bool_decide_eq_true_2; [done|].
  apply elem_of_eligible. split; [|done].
  by apply elem_of_elements.
Qed.

Lemma broadcast_contains_a_failed_write_witness :
  let out := broadcast (B_is_dead 0) "m" (Some conn_A) room_ABC in
  EvSendText conn_B "m" (Some (RuntimeError "socket is dead"))
    ∈ new_events room_ABC out.2
  /\ out.1 = Normal tt
  /\ writes_of conn_C "m" (new_events room_ABC out.2) = 1.
Proof.
  assert (EvSendText conn_B "m" (Some (RuntimeError "socket is dead"))
            ∈ new_events room_ABC
                (broadcast (B_is_dead 0) "m" (Some conn_A) room_ABC).2) as Hb.
  { vm_compute. in_list. }
  split; [exact Hb|].
  apply (broadcast_contains_a_failed_write (B_is_dead 0) "m" (Some conn_A)
           room_ABC conn_B (RuntimeError "socket is dead") conn_C).
  - exact Hb.
  - vm_compute. in_list.
  - discriminate.
  - discriminate.
Defined.

(** What [return_exceptions=True] buys: the same fan-out awaited without
    it raises the dead socket's exception in the awaiting coroutine. *)
Example gather_without_return_exceptions_raises :
  (gather false
     (collect_send_tasks (B_is_dead 0) "m" (Some conn_A) (Snapshot room_ABC))
     room_ABC).1
  = Raised (RuntimeError "socket is dead").
Proof. vm_compute. done. Qed.

(** C4.  With nobody registered [broadcast] returns at once, normally, and
    the world is as it was: no write is made. *)
Theorem broadcast_on_empty_registry
    (T : Transport) (message : string) (exclude : option nat) (w : World) :
  active_connections w = ∅ ->
  broadcast T message exclude w = (Normal tt, w)
  /\ new_events w (broadcast T message exclude w).2 = [].
Proof.
  intros Hempty. unfold broadcast. rewrite bool_decide_eq_true_2 by done.
  split; [done|]. unfold new_events. simpl. by rewrite drop_all.
Qed.

Lemma broadcast_on_empty_registry_witness :
  active_connections empty_world = ∅
  /\ broadcast reliable "m" (Some conn_A) empty_world = (Normal tt, empty_world)
  /\ new_events empty_world
       (broadcast reliable "m" (Some conn_A) empty_world).2 = [].
Proof.
  split; [reflexivity|].
  apply (broadcast_on_empty_registry reliable "m" (Some conn_A) empty_world).
  reflexivity.
Defined.

(** C10.  [broadcast] leaves [active_connections] as it found it, whoever
    is registered or excluded and whichever writes fail. *)
Theorem broadcast_preserves_registry
    (T : Transport) (message : string) (exclude : option nat) (w : World) :
  active_connections (broadcast T message exclude w).2 = active_connections w
  /\ Snapshot (broadcast T message exclude w).2 = Snapshot w.
Proof. rewrite broadcast_eq. done. Qed.

(** ** The registry *)

Section Registry.

Variable T : Transport.

Lemma connect_eq ws w :
  connect T ws w
  = match accept_outcome T (trace w) ws with
    | None =>
        (Normal tt,
         write_log
           (LogInfo "Client connected. Active=%d"
              (size ({[ws]} ∪ active_connections w)))
           (set_active ({[ws]} ∪ active_connections w)
              (emit (EvAccept ws None) w)))
    | Some e => (Raised e, emit (EvAccept ws (Some e)) w)
    end.
Proof.
  unfold connect, bind, accept. simpl.
  by destruct (accept_outcome T (trace w) ws).
Qed.

Lemma disconnect_eq ws w :
  disconnect ws w
  = (Normal tt,
     write_log
       (LogInfo "Client disconnected. Active=%d"
          (size (active_connections w ∖ {[ws]})))
       (set_active (active_connections w ∖ {[ws]}) w)).
Proof. reflexivity. Qed.

Lemma run_calls_snoc calls call w :
  run_calls T (calls ++ [call]) w
  = ((run_calls T calls w).1
       ++ [(call, (perform T call (run_calls T calls w).2).1)],
     (perform T call (run_calls T calls w).2).2).
Proof.
  revert w. induction calls as [|x l IH]; intros w; simpl.
  - by destruct (perform T call w).
  - destruct (perform T x w) as [r w1]. rewrite IH.
    by destruct (run_calls T l w1).
Qed.

End Registry.

Lemma completed_snoc log call r :
  completed (log ++ [(call, r)])
  = completed log ++ match r with Normal _ => [call] | Raised _ => [] end.
Proof. unfold completed. rewrite omap_app. simpl. by destruct r. Qed.

Lemma still_connected_nil c : ~ still_connected c [].
Proof. intros (before & after & H & _). by destruct before. Qed.

Lemma still_connected_snoc c calls call :
  still_connected c (calls ++ [call])
  <-> call = Connect c \/ (still_connected c calls /\ call <> Disconnect c).
Proof.
  split.
  - intros (before & after & Heq & Hno).
    destruct after as [|z after _] using rev_ind.
    + apply (app_inj_tail calls before) in Heq as [_ ->]. by left.
    + rewrite app_comm_cons, app_assoc in Heq.
      apply app_inj_tail in Heq as [-> ->]. right. split.
      * exists before, after. split; [done|].
        intros Hin. apply Hno. apply elem_of_app. by left.
      * intros ->. apply Hno. apply elem_of_app. right. in_list.
  - intros [-> | [(before & after & -> & Hno) Hne]].
    + exists calls, []. split; [done|]. apply not_elem_of_nil.
    + exists before, (after ++ [call]). split.
      * by rewrite <- app_assoc.
      * rewrite elem_of_app, list_elem_of_singleton. intros [?|?]; auto.
Qed.

Lemma still_connected_b_spec c calls :
  still_connected_b c calls = true <-> still_connected c calls.
Proof.
  induction calls as [|x l IH]; simpl.
  - split; [done|]. intros H. by apply still_connected_nil in H.
  - rewrite orb_true_iff, andb_true_iff, !bool_decide_eq_true, IH.
    split.
    + intros [(before & after & -> & Hno) | [-> Hno]].
      * by exists (x :: before), after.
      * by exists [], l.
    + intros (before & after & Heq & Hno). destruct before as [|y before].
      * injection Heq as -> ->. by right.
      * injection Heq as -> ->. left. by exists before, after.
Qed.

Lemma elem_of_live_identities c calls :
  c ∈ live_identities calls <-> still_connected c calls.
Proof.
  unfold live_identities.
  rewrite list_elem_of_filter, elem_of_remove_dups, still_connected_b_spec.
  split; [by intros [? _]|]. intros H. split; [done|].
  destruct H as (before & after & -> & _).
  rewrite fmap_app, fmap_cons. apply elem_of_app. right. in_list.
Qed.

Lemma live_identities_NoDup calls : NoDup (live_identities calls).
Proof. apply NoDup_filter, NoDup_remove_dups. Qed.

(** After any calls from the empty registry, the members are the
    identities connected by a call that returned and not disconnected
    since. *)
Lemma registry_members (T : Transport) (calls : list Call) (c : nat) :
  c ∈ active_connections (run_calls T calls empty_world).2
  <-> still_connected c (completed (run_calls T calls empty_world).1).
Proof.
  induction calls as [|call calls IH] using rev_ind.
  - simpl. split; [set_solver|]. intros H. by apply still_connected_nil in H.
  - rewrite run_calls_snoc. simpl. rewrite completed_snoc.
    destruct (run_calls T calls empty_world) as [log w1]. simpl in *.
    destruct call as [a|a]; simpl.
    + rewrite connect_eq.
      destruct (accept_outcome T (trace w1) a) as [e|]; simpl.
      * by rewrite app_nil_r.
      * rewrite still_connected_snoc, elem_of_union, elem_of_singleton, IH.
        split.
        -- intros [->|H]; [by left|]. right. by split.
        -- intros [[= ->]|[H _]]; [by left | by right].
    + rewrite still_connected_snoc, elem_of_difference,
        elem_of_singleton, IH.
      split.
      * intros [H Hne]. right. split; [done|]. congruence.
      * intros [[=]|[H Hne]]. split; [done|]. congruence.
Qed.

Lemma completed_when_accepts_succeed (T : Transport) (calls : list Call) :
  (forall h ws, accept_outcome T h ws = None) ->
  completed (run_calls T calls empty_world).1 = calls.
Proof.
  intros Hok. induction calls as [|call calls IH] using rev_ind; [done|].
  rewrite run_calls_snoc. simpl. rewrite completed_snoc, IH.
  destruct call as [a|a]; simpl; [|done].
  rewrite connect_eq, Hok. done.
Qed.

(** C3.  After any finite sequence of Connect and Disconnect calls made
    on the empty registry, the snapshot lists, without repetition, exactly
    the identities that have been connected (by a call that returned) and
    not disconnected since, so its length is their number; the calls that
    return are all of them when every accept succeeds.  Connecting a
    connection that is already present leaves the membership, and its
    count, as they were. *)
Theorem snapshot_counts_still_connected_identities
    (T : Transport) (calls : list Call) :
  let out := run_calls T calls empty_world in
  let made := completed out.1 in
  (forall c, c ∈ Snapshot out.2 <-> still_connected c made)
  /\ NoDup (Snapshot out.2)
  /\ length (Snapshot out.2) = length (live_identities made)
  /\ (forall c, c ∈ live_identities made <-> still_connected c made)
  /\ NoDup (live_identities made)
  /\ ((forall h ws, accept_outcome T h ws = None) -> made = calls)
  /\ (forall ws w,
        ws ∈ active_connections w ->
        active_connections (connect T ws w).2 = active_connections w
        /\ length (Snapshot (connect T ws w).2) = length (Snapshot w)).
Proof.
  intros out made. subst out made.
  assert (forall c,
    c ∈ Snapshot (run_calls T calls empty_world).2
    <-> still_connected c (completed (run_calls T calls empty_world).1))
    as Hmem.
  { intros c. unfold Snapshot. rewrite elem_of_elements.
    apply registry_members. }
  split; [exact Hmem|].
  split; [unfold Snapshot; apply NoDup_elements|].
  split.
  { apply Permutation_length, NoDup_Permutation.
    - unfold Snapshot. apply NoDup_elements.
    - apply live_identities_NoDup.
    - intros c. by rewrite Hmem, elem_of_live_identities. }
  split; [intros c; apply elem_of_live_identities|].
  split; [apply live_identities_NoDup|].
  split.
  { apply completed_when_accepts_succeed. }
  intros ws w Hin.
  assert (active_connections (connect T ws w).2 = active_connections w)
    as Heq.
  { rewrite connect_eq.
    destruct (accept_outcome T (trace w) ws); simpl; [done|].
    by apply subseteq_union_1_L, singleton_subseteq_l. }
  split; [done|]. unfold Snapshot. by rewrite Heq.
Qed.

Lemma snapshot_counts_still_connected_identities_witness :
  let out := run_calls reliable busy_evening empty_world in
  (forall h ws, accept_outcome reliable h ws = None)
  /\ conn_A ∈ active_connections room_ABC
  /\ completed out.1 = busy_evening
  /\ length (Snapshot out.2) = length (live_identities busy_evening)
  /\ active_connections (connect reliable conn_A room_ABC).2
     = active_connections room_ABC.
Proof.
  assert (forall h ws, accept_outcome reliable h ws = None) as Hok
    by reflexivity.
  assert (conn_A ∈ active_connections room_ABC) as HA.
  { apply elem_of_elements. vm_compute. in_list. }
  destruct (snapshot_counts_still_connected_identities reliable busy_evening)
    as (_ & _ & Hlen & _ & _ & Hall & Hagain).
  split; [exact Hok|]. split; [exact HA|].
  split; [exact (Hall Hok)|].
  split; [by rewrite <- (Hall Hok) at 2|].
  exact (proj1 (Hagain conn_A room_ABC HA)).
Defined.

(** The same evening, counted: A and C remain. *)
Example busy_evening_leaves_two :
  length (Snapshot (run_calls reliable busy_evening empty_world).2) = 2
  /\ live_identities busy_evening = [conn_A; conn_C].
Proof. vm_compute. done. Qed.

(** C5.  [disconnect] of a connection that is not registered returns
    normally and changes neither the membership nor the socket history;
    after any [disconnect] of a connection, a further one for it is such a
    call, so repeating it is harmless. *)
Theorem disconnect_absent_is_noop (ws : nat) (w : World) :
  ws ∉ active_connections w ->
  (disconnect ws w).1 = Normal tt
  /\ active_connections (disconnect ws w).2 = active_connections w
  /\ Snapshot (disconnect ws w).2 = Snapshot w
  /\ trace (disconnect ws w).2 = trace w
  /\ (forall w0,
        (ws ∉ active_connections (disconnect ws w0).2)
        /\ (disconnect ws (disconnect ws w0).2).1 = Normal tt
        /\ active_connections (disconnect ws (disconnect ws w0).2).2
           = active_connections (disconnect ws w0).2).
Proof.
  intros Hnot. simpl.
  assert (active_connections w ∖ {[ws]} = active_connections w) as Heq.
  { apply set_eq. intros x. rewrite elem_of_difference, elem_of_singleton.
    split; [by intros [? _]|]. intros Hx. split; [done|]. by intros ->. }
  split; [done|]. split; [done|].
  split; [unfold Snapshot; simpl; by rewrite Heq|]. split; [done|].
  intros w0.
  split; [|split; [done|]].
  - rewrite elem_of_difference, elem_of_singleton. by intros [_ H].
  - apply set_eq. intros x. rewrite !elem_of_difference, elem_of_singleton.
    split; [by intros [? _]|]. by intros [? ?].
Qed.

Lemma disconnect_absent_is_noop_witness :
  (conn_D ∉ active_connections room_ABC)
  /\ (disconnect conn_D room_ABC).1 = Normal tt
  /\ active_connections (disconnect conn_D room_ABC).2
     = active_connections room_ABC.
Proof.
  assert (conn_D ∉ active_connections room_ABC) as HD.
  { intros H. apply elem_of_elements in H. vm_compute in H.
    repeat (apply elem_of_cons in H as [H|H]; [discriminate|]).
    by apply not_elem_of_nil in H. }
  split; [exact HD|].
  destruct (disconnect_absent_is_noop conn_D room_ABC HD) as (H1 & H2 & _).
  by split.
Defined.

(** ** Connect and the handshake *)

(** [connect] does act on the connection: it is [connect] that awaits
    [websocket.accept()].  On a socket accepted beforehand this is a second
    accept. *)
Lemma connect_only_registers_fails :
  ~ connect_only_registers accept_once conn_D D_accepted.
Proof.
  intros H. destruct (H eq_refl) as (_ & Htrace). discriminate Htrace.
Qed.

(** What happens there: with Starlette's state check the second accept
    raises, and the connection does not even enter the registry. *)
Example connect_after_handshake_on_strict_transport :
  connect accept_once conn_D D_accepted
  = (Raised (RuntimeError "unexpected websocket.accept"),
     emit (EvAccept conn_D
             (Some (RuntimeError "unexpected websocket.accept")))
          D_accepted)
  /\ Snapshot (connect accept_once conn_D D_accepted).2 = [].
Proof. vm_compute. done. Qed.

(** On a transport that lets a second accept through, the connection is
    registered, after having been accepted twice. *)
Example connect_after_handshake_on_lenient_transport :
  (connect reliable conn_D D_accepted).1 = Normal tt
  /\ Snapshot (connect reliable conn_D D_accepted).2 = [conn_D]
  /\ trace (connect reliable conn_D D_accepted).2
     = [EvAccept conn_D None; EvAccept conn_D None].
Proof. vm_compute. done. Qed.

(** C6, amended.  [connect] performs the accept step of the handshake
    itself, as its first action; when the accept succeeds it adds the
    connection to the membership and returns, when the accept raises the
    exception reaches the caller and the membership is unchanged.  The
    accept is its only action on the connection. *)
Theorem connect_accepts_then_registers
    (T : Transport) (ws : nat) (w : World) :
  let o := accept_outcome T (trace w) ws in
  trace (connect T ws w).2 = trace w ++ [EvAccept ws o]
  /\ match o with
     | None =>
         (connect T ws w).1 = Normal tt
         /\ active_connections (connect T ws w).2
            = {[ws]} ∪ active_connections w
     | Some e =>
         (connect T ws w).1 = Raised e
         /\ active_connections (connect T ws w).2 = active_connections w
     end.
Proof.
  intros o. subst o. rewrite connect_eq.
  destruct (accept_outcome T (trace w) ws); simpl; done.
Qed.

(** ** Direct send *)

(** C8.  When the write of [send_personal_message] raises, the exception
    is the result of the call: it reaches the caller, after that one write
    and nothing else.  A broadcast in the same world returns normally. *)
Theorem send_personal_message_failure_propagates
    (T : Transport) (message : string) (ws : nat) (w : World) (e : Exn) :
  send_text_outcome T (trace w) ws message = Some e ->
  send_personal_message T message ws w
  = (Raised e, emit (EvSendText ws message (Some e)) w)
  /\ forall exclude, (broadcast T message exclude w).1 = Normal tt.
Proof.
  intros Hfail. unfold send_personal_message, send_text. rewrite Hfail.
  split; [done|]. intros exclude. by rewrite broadcast_eq.
Qed.

Lemma send_personal_message_failure_propagates_witness :
  send_text_outcome (B_is_dead 0) (trace room_ABC) conn_B "You wrote: hi"
  = Some (RuntimeError "socket is dead")
  /\ (send_personal_message (B_is_dead 0) "You wrote: hi" conn_B room_ABC).1
     = Raised (RuntimeError "socket is dead")
  /\ (broadcast (B_is_dead 0) "You wrote: hi" None room_ABC).1 = Normal tt.
Proof.
  split; [reflexivity|].
  destruct (send_personal_message_failure_propagates (B_is_dead 0)
              "You wrote: hi" conn_B room_ABC (RuntimeError "socket is dead")
              eq_refl) as [H1 H2].
  split; [by rewrite H1 | apply H2].
Defined.

(** ** The endpoint's message loop *)

Section MessageLoop.

Variable T : Transport.

Lemma fanout_broadcast_writes h message ws snapshot :
  Forall (broadcast_write ws message)
         (fanout T h message (eligible (Some ws) snapshot)).
Proof.
  assert (forall targets,
    Forall (fun c => c <> ws) targets ->
    forall h, Forall (broadcast_write ws message)
                (fanout T h message targets)) as H.
  { induction 1 as [|c l Hc Hl IH]; intros h'; simpl; constructor.
    - by eexists _, _.
    - apply IH. }
  apply H. apply Forall_forall. intros c Hc.
  apply list_elem_of_filter in Hc as [Hc _]. simpl in Hc.
  by apply bool_decide_eq_false in Hc.
Qed.

(** One turn of the loop, case by case. *)
Lemma serve_message_eq ws client_id w :
  serve_message T ws client_id w
  = match receive_text_outcome T (trace w) ws with
    | inr e => (Raised e, add_events [EvReceiveText ws (inr e)] w)
    | inl data =>
        let read := EvReceiveText ws (inl data) in
        let echo := "You wrote: " +:+ data in
        match send_text_outcome T (trace w ++ [read]) ws echo with
        | Some e =>
            (Raised e, add_events [read; EvSendText ws echo (Some e)] w)
        | None =>
            (Normal tt,
             add_events
               (read :: EvSendText ws echo None
                  :: fanout T (trace w ++ [read; EvSendText ws echo None])
                       ("Client #" +:+ client_id +:+ " says: " +:+ data)
                       (eligible (Some ws) (Snapshot w)))
               w)
        end
    end.
Proof.
  unfold serve_message, bind, receive_text, send_personal_message,
    send_text.
  destruct (receive_text_outcome T (trace w) ws) as [data|e]; [|done].
  cbn [trace emit]. cbv zeta.
  destruct (send_text_outcome T (trace w ++ [EvReceiveText ws (inl data)])
              ws ("You wrote: " +:+ data)) as [e|] eqn:E;
    cbn [of_outcome].
  - by rewrite !emit_add_events, add_events_app.
  - rewrite broadcast_eq, !emit_add_events, !add_events_app.
    reflexivity.
Qed.

(** The loop only adds to the socket history, and what it adds has the
    shape [served_in_order]. *)
Lemma message_loop_events turns ws client_id w :
  exists evs,
    (message_loop T turns ws client_id w).2 = add_events evs w
    /\ served_in_order ws client_id evs.
Proof.
  revert w. induction turns as [|n IH]; intros w.
  - exists []. rewrite add_events_nil. split; [done | constructor].
  - cbn [message_loop]. unfold bind at 1. rewrite serve_message_eq.
    destruct (receive_text_outcome T (trace w) ws) as [data|e].
    + cbv zeta.
      destruct (send_text_outcome T _ ws ("You wrote: " +:+ data))
        as [e|].
      * eexists. split; [done | constructor].
      * match goal with
        | |- context [message_loop T n ws client_id ?w1] =>
            destruct (IH w1) as (evs & Heq & Hshape)
        end.
        eexists. rewrite Heq, add_events_app. split; [done|].
        rewrite <- !app_comm_cons.
        constructor; [apply fanout_broadcast_writes | done].
    + eexists. split; [done | constructor].
Qed.

End MessageLoop.

Lemma append_cancel (s a b : string) : s +:+ a = s +:+ b -> a = b.
Proof.
  induction s as [|ch s IH]; simpl; [done|]. intros [= H]. by apply IH.
Qed.

(** In a history of the loop every write of a chat line stands in a turn:
    the read of that text, then the echo to the sender, then nothing but
    broadcast writes of the line up to the one looked at. *)
Lemma served_in_order_echo_first ws client_id evs :
  served_in_order ws client_id evs ->
  forall i c data o,
    evs !! i
    = Some (EvSendText c ("Client #" +:+ client_id +:+ " says: " +:+ data) o)
    ->
    c <> ws
    /\ exists j,
         evs !! j = Some (EvReceiveText ws (inl data))
         /\ evs !! S j = Some (EvSendText ws ("You wrote: " +:+ data) None)
         /\ S j < i
         /\ forall k, S j < k -> k < i ->
              exists c' o',
                evs !! k
                = Some (EvSendText c'
                          ("Client #" +:+ client_id +:+ " says: " +:+ data) o').
Proof.
  induction 1 as [|e|data0 e|data0 fan rest Hfan Hrest IH];
    intros i c data o Hi.
  - done.
  - by destruct i as [|[|i]].
  - by destruct i as [|[|[|i]]].
  - destruct i as [|[|i]]; [done|discriminate Hi|].
    change ((fan ++ rest) !! i
            = Some (EvSendText c
                      ("Client #" +:+ client_id +:+ " says: " +:+ data) o))
      in Hi.
    destruct (decide (i < length fan)) as [Hlt|Hge].
    + rewrite lookup_app_l in Hi by done.
      pose proof (proj1 (Forall_lookup _ _) Hfan _ _ Hi)
        as (c' & o' & [= -> Hsays ->] & Hne).
      do 3 apply append_cancel in Hsays. subst data0.
      split; [done|]. exists 0. split; [done|]. split; [done|].
      split; [lia|]. intros k Hk1 Hk2.
      destruct k as [|[|k]]; [lia|lia|].
      assert (k < length fan) as Hk by lia.
      apply lookup_lt_is_Some in Hk as [ev Hev].
      pose proof (proj1 (Forall_lookup _ _) Hfan _ _ Hev)
        as (c1 & o1 & -> & _).
      exists c1, o1.
      change ((fan ++ rest) !! k
              = Some (EvSendText c1
                        ("Client #" +:+ client_id +:+ " says: " +:+ data)
                        o1)).
      by rewrite lookup_app_l by lia.
    + rewrite lookup_app_r in Hi by lia.
      destruct (IH _ _ _ _ Hi) as (Hne & j & Hread & Hecho & Hlt & Hbetween).
      split; [done|]. exists (S (S (length fan + j))).
      split.
      { change ((fan ++ rest) !! (length fan + j)
                = Some (EvReceiveText ws (inl data))).
        rewrite lookup_app_r by lia.
        by replace (length fan + j - length fan) with j by lia. }
      split.
      { change ((fan ++ rest) !! (S (length fan + j))
                = Some (EvSendText ws ("You wrote: " +:+ data) None)).
        rewrite lookup_app_r by lia.
        by replace (S (length fan + j) - length fan) with (S j) by lia. }
      split; [lia|]. intros k Hk1 Hk2.
      destruct k as [|[|k]]; [lia|lia|].
      destruct (Hbetween (k - length fan)) as (c1 & o1 & Hk); [lia|lia|].
      exists c1, o1.
      change ((fan ++ rest) !! k
              = Some (EvSendText c1
                        ("Client #" +:+ client_id +:+ " says: " +:+ data)
                        o1)).
      by rewrite lookup_app_r by lia.
Qed.

(** C9.  In the message loop of a connection the operations of each
    message read come in one order: the read, then the echo "You wrote: ..."
    to the sender, then the writes of the broadcast, which go to the others
    only.  No write of the broadcast of a message comes before the echo of
    that message, and when the echo raises there is no broadcast at all. *)
Theorem echo_precedes_broadcast
    (T : Transport) (turns : nat) (ws : nat) (client_id : string)
    (w : World) :
  let w' := (message_loop T turns ws client_id w).2 in
  let evs := new_events w w' in
  trace w' = trace w ++ evs
  /\ served_in_order ws client_id evs
  /\ forall i c data o,
       evs !! i
       = Some (EvSendText c
                 ("Client #" +:+ client_id +:+ " says: " +:+ data) o) ->
       c <> ws
       /\ exists j,
            evs !! j = Some (EvReceiveText ws (inl data))
            /\ evs !! S j
               = Some (EvSendText ws ("You wrote: " +:+ data) None)
            /\ S j < i
            /\ forall k, S j < k -> k < i ->
                 exists c' o',
                   evs !! k
                   = Some (EvSendText c'
                             ("Client #" +:+ client_id +:+ " says: " +:+ data)
                             o').
Proof.
  intros w' evs. subst w' evs.
  destruct (message_loop_events T turns ws client_id w)
    as (evs & -> & Hshape).
  rewrite new_events_add_events.
  split; [done|]. split; [done|].
  by apply served_in_order_echo_first.
Qed.

Lemma echo_precedes_broadcast_witness :
  let evs := new_events room_ABC
               (message_loop (talkative 2) 3 conn_A "A" room_ABC).2 in
  evs !! 2 = Some (EvSendText conn_B ("Client #" +:+ "A" +:+ " says: " +:+ "hi")
                     None)
  /\ conn_B <> conn_A
  /\ exists j,
       evs !! j = Some (EvReceiveText conn_A (inl "hi"))
       /\ evs !! S j = Some (EvSendText conn_A ("You wrote: " +:+ "hi") None)
       /\ S j < 2.
Proof.
  assert (new_events room_ABC
            (message_loop (talkative 2) 3 conn_A "A" room_ABC).2 !! 2
          = Some (EvSendText conn_B
                    ("Client #" +:+ "A" +:+ " says: " +:+ "hi") None)) as Hi
    by (vm_compute; reflexivity).
  split; [exact Hi|].
  destruct (echo_precedes_broadcast (talkative 2) 3 conn_A "A" room_ABC)
    as (_ & _ & H).
  destruct (H 2 conn_B "hi" None Hi) as (Hne & j & Hread & Hecho & Hlt & _).
  split; [exact Hne|]. by exists j.
Defined.

(** One turn on a quiet evening, event by event (B before C is the order
    of [elements]). *)
Example one_message_from_A :
  new_events room_ABC (message_loop (talkative 2) 3 conn_A "A" room_ABC).2
  = [EvReceiveText conn_A (inl "hi");
     EvSendText conn_A "You wrote: hi" None;
     EvSendText conn_B "Client #A says: hi" None;
     EvSendText conn_C "Client #A says: hi" None;
     EvReceiveText conn_A (inr WebSocketDisconnect)].
Proof. vm_compute. reflexivity. Qed.

(** ** Joining *)

Lemma eligible_nobody_excluded (snapshot : list nat) :
  eligible None snapshot = snapshot.
Proof.
  unfold eligible. induction snapshot as [|c l IH]; [done|].
  rewrite filter_cons_True by done. by rewrite IH.
Qed.

Lemma fanout_writes_of_other_text (T : Transport) h message targets c text :
  message <> text -> writes_of c text (fanout T h message targets) = 0.
Proof.
  intros Hne. revert h. induction targets as [|x l IH]; intros h; [done|].
  unfold writes_of in *. simpl. rewrite IH.
  rewrite (bool_decide_eq_false_2 (message = text)) by done.
  by rewrite andb_false_r.
Qed.

Lemma broadcast_writes_of_other_text (ws : nat) message fan c text :
  message <> text ->
  Forall (broadcast_write ws message) fan -> writes_of c text fan = 0.
Proof.
  intros Hne. induction 1 as [|ev l (x & o & -> & _) Hl IH]; [done|].
  unfold writes_of in *. simpl. rewrite IH.
  rewrite (bool_decide_eq_false_2 (message = text)) by done.
  by rewrite andb_false_r.
Qed.

Lemma writes_of_app c text evs1 evs2 :
  writes_of c text (evs1 ++ evs2)
  = writes_of c text evs1 + writes_of c text evs2.
Proof. apply count_events_app. Qed.

(** The loop writes echoes and chat lines, never a join notice. *)
Lemma served_in_order_no_join_notice ws client_id evs c :
  served_in_order ws client_id evs ->
  writes_of c ("Client #" +:+ client_id +:+ " joined") evs = 0.
Proof.
  assert (forall data,
    "You wrote: " +:+ data <> "Client #" +:+ client_id +:+ " joined")
    as Hecho by (intros data; simpl; discriminate).
  induction 1 as [|e|data e|data fan rest Hfan Hrest IH].
  - done.
  - done.
  - unfold writes_of. cbn [count_events is_write_of].
    by rewrite (bool_decide_eq_false_2 _ (Hecho data)), andb_false_r.
  - change (EvReceiveText ws (inl data)
              :: EvSendText ws ("You wrote: " +:+ data) None :: fan ++ rest)
      with ([EvReceiveText ws (inl data);
             EvSendText ws ("You wrote: " +:+ data) None] ++ fan ++ rest).
    rewrite !writes_of_app, IH.
    rewrite (broadcast_writes_of_other_text ws
               ("Client #" +:+ client_id +:+ " says: " +:+ data) fan c
               ("Client #" +:+ client_id +:+ " joined")); [| |exact Hfan].
    + unfold writes_of. cbn [count_events is_write_of].
      by rewrite (bool_decide_eq_false_2 _ (Hecho data)), andb_false_r.
    + intros H. do 2 apply append_cancel in H. discriminate H.
Qed.

(** Neither do the two ways out of the endpoint: they only add to the
    socket history, and what they write is a departure notice. *)
Lemma on_exception_no_join_notice
    (T : Transport) (ws : nat) (client_id : string) (e : Exn) (w : World) :
  exists evs,
    trace (on_exception T ws client_id e w).2 = trace w ++ evs
    /\ forall c,
         writes_of c ("Client #" +:+ client_id +:+ " joined") evs = 0.
Proof.
  destruct e as [|what]; unfold on_exception.
  - unfold bind at 1. rewrite disconnect_eq.
    unfold bind at 1. rewrite broadcast_eq. unfold bind, ret.
    eexists. split; [reflexivity|]. intros c.
    apply fanout_writes_of_other_text.
    intros H. do 2 apply append_cancel in H. discriminate H.
  - unfold bind at 1, log_exception. unfold bind at 1, try_finally, close.
    unfold bind at 1. rewrite disconnect_eq. rewrite broadcast_eq.
    cbn [fst snd trace write_log set_active emit add_events].
    destruct (close_outcome T (trace w) ws) as [e|]; cbn [of_outcome];
      unfold ret; cbn [fst snd trace write_log set_active emit add_events];
      rewrite <- app_assoc;
      (eexists; split; [reflexivity|]); intros c;
      rewrite writes_of_app, fanout_writes_of_other_text;
      try done;
      intros H; do 2 apply append_cancel in H; discriminate H.
Qed.

(** C7.  When a client joins (its accept succeeds), the endpoint has
    registered it before it broadcasts the join notice, and the notice is
    broadcast with no exclusion: of the history that follows the accept,
    the first part is the notice being written exactly once to every
    connection registered at that moment, the newcomer among them and
    every peer that had joined before, and to nobody else; each of these
    writes either is carried out or raises in the transport.  Nothing that
    the endpoint does afterwards writes the notice again. *)
Theorem join_notice_reaches_everyone_registered
    (T : Transport) (turns : nat) (ws : nat) (client_id : string)
    (w : World) :
  accept_outcome T (trace w) ws = None ->
  let joined := "Client #" +:+ client_id +:+ " joined" in
  exists notice rest,
    trace (websocket_endpoint T turns ws client_id w).2
    = trace w ++ EvAccept ws None :: notice ++ rest
    /\ (forall c,
          writes_of c joined notice
          = if bool_decide (c = ws \/ c ∈ active_connections w)
            then 1 else 0)
    /\ writes_of ws joined notice = 1
    /\ (forall c, writes_to c notice = writes_of c joined notice)
    /\ other_events notice = 0
    /\ (forall c,
          deliveries_of c joined notice + failures_of c joined notice
          = writes_of c joined notice)
    /\ (forall c, writes_of c joined rest = 0).
Proof.
  intros Hacc joined.
  set (w1 := write_log
               (LogInfo "Client connected. Active=%d"
                  (size ({[ws]} ∪ active_connections w)))
               (set_active ({[ws]} ∪ active_connections w)
                  (emit (EvAccept ws None) w))).
  set (notice := fanout T (trace w1) joined (eligible None (Snapshot w1))).
  assert (forall c,
    writes_of c joined notice
    = if bool_decide (c = ws \/ c ∈ active_connections w) then 1 else 0)
    as Hcount.
  { intros c. unfold notice.
    rewrite fanout_writes_of, count_in_NoDup by apply eligible_NoDup.
    rewrite (bool_decide_ext _ (c = ws \/ c ∈ active_connections w));
      [done|].
    rewrite elem_of_eligible. subst w1. simpl.
    rewrite elem_of_union, elem_of_singleton.
    split; [by intros [? _] | by intros ?]. }
  assert (exists rest,
    trace (websocket_endpoint T turns ws client_id w).2
    = trace w ++ EvAccept ws None :: notice ++ rest
    /\ forall c, writes_of c joined rest = 0) as (rest & Htrace & Hrest).
  { unfold websocket_endpoint. unfold bind at 1. rewrite connect_eq, Hacc.
    fold w1. unfold try_except. unfold bind at 1. rewrite broadcast_eq.
    fold joined. fold notice.
    destruct (message_loop_events T turns ws client_id (add_events notice w1))
      as (evs & Hloop & Hshape).
    destruct (message_loop T turns ws client_id (add_events notice w1))
      as [[p|e] w2] eqn:E; simpl in Hloop; subst w2.
    - exists evs. split.
      + simpl. by rewrite <- !app_assoc.
      + intros c.
        exact (served_in_order_no_join_notice ws client_id evs c Hshape).
    - destruct (on_exception_no_join_notice T ws client_id e
                  (add_events evs (add_events notice w1)))
        as (hevs & Hh & Hno).
      exists (evs ++ hevs). split.
      + rewrite Hh. simpl. by rewrite <- !app_assoc.
      + intros c. rewrite writes_of_app, Hno, Nat.add_0_r.
        exact (served_in_order_no_join_notice ws client_id evs c Hshape). }
  exists notice, rest.
  split; [exact Htrace|]. split; [exact Hcount|].
  split.
  { rewrite Hcount. rewrite bool_decide_eq_true_2; [done | by left]. }
  split; [intros c; apply fanout_writes_to|].
  split; [apply fanout_other_events|].
  split; [intros c; apply fanout_settled | exact Hrest].
Qed.

Lemma join_notice_reaches_everyone_registered_witness :
  accept_outcome reliable (trace room_ABC) conn_D = None
  /\ exists notice rest,
       trace (websocket_endpoint reliable 1 conn_D "D" room_ABC).2
       = trace room_ABC ++ EvAccept conn_D None :: notice ++ rest
       /\ writes_of conn_D ("Client #" +:+ "D" +:+ " joined") notice = 1
       /\ forall c,
            writes_of c ("Client #" +:+ "D" +:+ " joined") rest = 0.
Proof.
  split; [reflexivity|].
  destruct (join_notice_reaches_everyone_registered reliable 1 conn_D "D"
              room_ABC eq_refl)
    as (notice & rest & Htrace & _ & Hself & _ & _ & _ & Hrest).
  exists notice, rest. by repeat split.
Defined.

(** D joins A, B and C and leaves at once: everybody, D included, is sent
    the join notice once, and the three who stay are sent the departure
    notice. *)
Example D_joins_and_leaves :
  let out := websocket_endpoint reliable 1 conn_D "D" room_ABC in
  let evs := new_events room_ABC out.2 in
  out.1 = Normal Returned
  /\ deliveries_of conn_A "Client #D joined" evs = 1
  /\ deliveries_of conn_B "Client #D joined" evs = 1
  /\ deliveries_of conn_C "Client #D joined" evs = 1
  /\ deliveries_of conn_D "Client #D joined" evs = 1
  /\ deliveries_of conn_A "Client #D left the chat" evs = 1
  /\ writes_to conn_D evs = 1
  /\ length (Snapshot out.2) = 3.
Proof. vm_compute. done. Qed.

(** When the accept raises nobody joins: the exception leaves the
    endpoint, the registry is unchanged and nothing is written. *)
Example no_join_without_accept :
  let out := websocket_endpoint accept_once 1 conn_D "D" D_accepted in
  out.1 = Raised (RuntimeError "unexpected websocket.accept")
  /\ Snapshot out.2 = []
  /\ count_events is_write (new_events D_accepted out.2) = 0.
Proof. vm_compute. done. Qed.

(** ** Further properties of the registry *)

Lemma registry_size (T : Transport) (calls : list Call) :
  size (active_connections (run_calls T calls empty_world).2)
  = length (live_identities (completed (run_calls T calls empty_world).1)).
Proof.
  apply Permutation_length, NoDup_Permutation.
  - apply NoDup_elements.
  - apply live_identities_NoDup.
  - intros c. rewrite elem_of_elements, elem_of_live_identities.
    apply registry_members.
Qed.

(** X1.  After any calls of [connect] and [disconnect] on the empty
    registry, [health] answers status "ok" and, as the number of clients,
    the number of distinct identities connected by a call that returned
    and not disconnected since. *)
Theorem health_reports_still_connected_identities
    (T : Transport) (calls : list Call) :
  let out := run_calls T calls empty_world in
  health out.2
  = [("status", JString "ok");
     ("clients", JNumber (length (live_identities (completed out.1))))].
Proof. intros out. subst out. unfold health. by rewrite registry_size. Qed.

(** X2.  [connect] of a connection that is not registered, when its accept
    succeeds, makes the registry one larger, and the record it logs
    carries the new count. *)
Theorem connect_fresh_adds_one (T : Transport) (ws : nat) (w : World) :
  ws ∉ active_connections w ->
  accept_outcome T (trace w) ws = None ->
  size (active_connections (connect T ws w).2)
  = S (size (active_connections w))
  /\ journal (connect T ws w).2
     = journal w
       ++ [LogInfo "Client connected. Active=%d"
             (S (size (active_connections w)))].
Proof.
  intros Hnew Hacc. rewrite connect_eq, Hacc. simpl.
  assert (size ({[ws]} ∪ active_connections w)
          = S (size (active_connections w))) as Hsize.
  { rewrite size_union by (apply disjoint_singleton_l; exact Hnew).
    by rewrite size_singleton. }
  by rewrite Hsize.
Qed.

Lemma connect_fresh_adds_one_witness :
  (conn_D ∉ active_connections room_ABC)
  /\ accept_outcome reliable (trace room_ABC) conn_D = None
  /\ size (active_connections (connect reliable conn_D room_ABC).2)
     = S (size (active_connections room_ABC)).
Proof.
  assert (conn_D ∉ active_connections room_ABC) as HD.
  { intros H. apply elem_of_elements in H. vm_compute in H.
    repeat (apply elem_of_cons in H as [H|H]; [discriminate|]).
    by apply not_elem_of_nil in H. }
  split; [exact HD|]. split; [reflexivity|].
  exact (proj1 (connect_fresh_adds_one reliable conn_D room_ABC HD eq_refl)).
Defined.

(** X3.  [disconnect] of a registered connection removes that connection
    and no other, makes the registry one smaller, and logs the new
    count. *)
Theorem disconnect_present_removes_one (ws : nat) (w : World) :
  ws ∈ active_connections w ->
  (ws ∉ active_connections (disconnect ws w).2)
  /\ (forall c, c <> ws ->
        (c ∈ active_connections (disconnect ws w).2
         <-> c ∈ active_connections w))
  /\ S (size (active_connections (disconnect ws w).2))
     = size (active_connections w)
  /\ journal (disconnect ws w).2
     = journal w
       ++ [LogInfo "Client disconnected. Active=%d"
             (size (active_connections w) - 1)].
Proof.
  intros Hin. rewrite disconnect_eq. simpl.
  assert (size (active_connections w ∖ {[ws]})
          = size (active_connections w) - 1) as Hsize.
  { rewrite size_difference by (by apply singleton_subseteq_l).
    by rewrite size_singleton. }
  assert (size (active_connections w) <> 0) as Hpos.
  { apply size_non_empty_iff. intros Hempty.
    apply (not_elem_of_empty (C := gset nat) ws).
    by rewrite <- (leibniz_equiv _ _ Hempty). }
  split; [rewrite elem_of_difference, elem_of_singleton; by intros [_ ?]|].
  split.
  { intros c Hc. rewrite elem_of_difference, elem_of_singleton.
    split; [by intros [? _] | by intros ?]. }
  split; [rewrite Hsize; lia | by rewrite Hsize].
Qed.

Lemma disconnect_present_removes_one_witness :
  conn_B ∈ active_connections room_ABC
  /\ (conn_B ∉ active_connections (disconnect conn_B room_ABC).2)
  /\ S (size (active_connections (disconnect conn_B room_ABC).2))
     = size (active_connections room_ABC).
Proof.
  assert (conn_B ∈ active_connections room_ABC) as HB.
  { apply elem_of_elements. vm_compute. in_list. }
  split; [exact HB|].
  destruct (disconnect_present_removes_one conn_B room_ABC HB)
    as (H1 & _ & H3 & _).
  by split.
Defined.

(** X4.  Connecting a connection that was not registered and then
    disconnecting it gives back the registry as it was. *)
Theorem connect_then_disconnect_restores_registry
    (T : Transport) (ws : nat) (w : World) :
  ws ∉ active_connections w ->
  active_connections (disconnect ws (connect T ws w).2).2
  = active_connections w.
Proof.
  intros Hnew. rewrite disconnect_eq, connect_eq. simpl.
  destruct (accept_outcome T (trace w) ws); simpl;
    apply set_eq; intros c;
    rewrite ?elem_of_difference, ?elem_of_union, ?elem_of_singleton.
  - split; [by intros [? _]|]. intros Hc. split; [done|]. by intros ->.
  - split; [by intros [[?|?] ?]|]. intros Hc.
    split; [by right|]. by intros ->.
Qed.

Lemma connect_then_disconnect_restores_registry_witness :
  (conn_D ∉ active_connections room_ABC)
  /\ active_connections
       (disconnect conn_D (connect reliable conn_D room_ABC).2).2
     = active_connections room_ABC.
Proof.
  assert (conn_D ∉ active_connections room_ABC) as HD.
  { intros H. apply elem_of_elements in H. vm_compute in H.
    repeat (apply elem_of_cons in H as [H|H]; [discriminate|]).
    by apply not_elem_of_nil in H. }
  split; [exact HD|].
  exact (connect_then_disconnect_restores_registry reliable conn_D room_ABC
           HD).
Defined.

(** ** Further properties of the broadcast *)

Lemma eligible_absent (x : nat) (snapshot : list nat) :
  x ∉ snapshot -> eligible (Some x) snapshot = snapshot.
Proof.
  unfold eligible. induction snapshot as [|c l IH]; intros Hx; [done|].
  apply not_elem_of_cons in Hx as [Hne Hx].
  rewrite filter_cons_True.
  - by rewrite IH.
  - simpl. apply bool_decide_eq_false. congruence.
Qed.

(** X5.  The handler around [gather] never runs: whatever the writes do,
    [broadcast] writes no log record. *)
Theorem broadcast_never_logs
    (T : Transport) (message : string) (exclude : option nat) (w : World) :
  journal (broadcast T message exclude w).2 = journal w.
Proof. by rewrite broadcast_eq. Qed.

(** X6.  Excluding a connection that is not registered excludes nobody:
    the broadcast is the one with no exclusion. *)
Theorem broadcast_excluding_a_stranger
    (T : Transport) (message : string) (x : nat) (w : World) :
  x ∉ active_connections w ->
  broadcast T message (Some x) w = broadcast T message None w.
Proof.
  intros Hx. rewrite !broadcast_eq.
  rewrite eligible_nobody_excluded, eligible_absent; [done|].
  unfold Snapshot. by rewrite elem_of_elements.
Qed.

Lemma broadcast_excluding_a_stranger_witness :
  (conn_D ∉ active_connections room_ABC)
  /\ broadcast reliable "m" (Some conn_D) room_ABC
     = broadcast reliable "m" None room_ABC.
Proof.
  assert (conn_D ∉ active_connections room_ABC) as HD.
  { intros H. apply elem_of_elements in H. vm_compute in H.
    repeat (apply elem_of_cons in H as [H|H]; [discriminate|]).
    by apply not_elem_of_nil in H. }
  split; [exact HD|].
  exact (broadcast_excluding_a_stranger reliable "m" conn_D room_ABC HD).
Defined.

(** X7.  When the excluded connection is the only one registered there
    is nothing to gather: [broadcast] returns normally and leaves the
    world as it was. *)
Theorem broadcast_to_nobody_else
    (T : Transport) (message : string) (x : nat) (w : World) :
  active_connections w = {[x]} ->
  broadcast T message (Some x) w = (Normal tt, w).
Proof.
  intros Honly. rewrite broadcast_eq. unfold Snapshot, eligible.
  rewrite Honly, elements_singleton, filter_cons_False, filter_nil.
  - simpl. by rewrite add_events_nil.
  - simpl. rewrite bool_decide_eq_true_2; done.
Qed.

Lemma broadcast_to_nobody_else_witness :
  active_connections room_A = {[conn_A]}
  /\ broadcast reliable "m" (Some conn_A) room_A = (Normal tt, room_A).
Proof.
  split; [reflexivity|].
  exact (broadcast_to_nobody_else reliable "m" conn_A room_A eq_refl).
Defined.

(** X8.  A connection that has been disconnected is not written to by a
    later broadcast, whatever the message and the exclusion. *)
Theorem no_write_after_disconnect
    (T : Transport) (message : string) (exclude : option nat)
    (ws : nat) (w : World) :
  let w1 := (disconnect ws w).2 in
  writes_to ws (new_events w1 (broadcast T message exclude w1).2) = 0.
Proof.
  intros w1. subst w1. rewrite broadcast_eq. simpl snd.
  rewrite new_events_add_events, fanout_writes_to, fanout_writes_of.
  rewrite count_in_NoDup by apply eligible_NoDup.
  rewrite bool_decide_eq_false_2; [done|].
  rewrite elem_of_eligible. simpl.
  rewrite elem_of_difference, elem_of_singleton. by intros [[_ ?] _].
Qed.

(** ** Further properties of the endpoint *)

Lemma new_events_of_trace (w w' : World) (evs : list Event) :
  trace w' = trace w ++ evs -> new_events w w' = evs.
Proof. intros H. unfold new_events. rewrite H. apply drop_app_length. Qed.

(** What the two [except] clauses do, whichever of them is taken. *)
Lemma on_exception_facts
    (T : Transport) (ws : nat) (client_id : string) (e : Exn) (w : World) :
  let out := on_exception T ws client_id e w in
  let closing := closing_events T ws e (trace w) in
  out.1 = match closing with
          | EvClose _ (Some e') :: _ => Raised e'
          | _ => Normal Returned
          end
  /\ active_connections out.2 = active_connections w ∖ {[ws]}
  /\ trace out.2
     = trace w ++ closing
       ++ fanout T (trace w ++ closing) (departure_text client_id e)
            (elements (active_connections w ∖ {[ws]})).
Proof.
  destruct e as [|what]; unfold on_exception, closing_events, departure_text;
    cbv zeta.
  - unfold bind, ret. rewrite disconnect_eq. cbv iota beta.
    rewrite broadcast_eq, eligible_nobody_excluded.
    cbn [fst snd trace write_log set_active add_events
           active_connections Snapshot].
    by rewrite !app_nil_r.
  - unfold bind, log_exception, try_finally, close, ret. cbv iota beta zeta.
    unfold bind. rewrite disconnect_eq. cbv iota beta.
    rewrite broadcast_eq, eligible_nobody_excluded.
    cbn [fst snd trace write_log set_active emit add_events
           active_connections Snapshot].
    destruct (close_outcome T (trace w) ws) as [e|]; cbn [of_outcome];
      cbn [fst snd trace write_log set_active emit add_events
             active_connections];
      by rewrite <- app_assoc.
Qed.

(** The endpoint, once the accept has succeeded: the join notice, the
    loop, and the handler if the loop raised. *)
Lemma websocket_endpoint_joined
    (T : Transport) (turns : nat) (ws : nat) (client_id : string)
    (w : World) :
  accept_outcome T (trace w) ws = None ->
  let w1 := write_log
              (LogInfo "Client connected. Active=%d"
                 (size ({[ws]} ∪ active_connections w)))
              (set_active ({[ws]} ∪ active_connections w)
                 (emit (EvAccept ws None) w)) in
  let w2 := add_events
              (fanout T (trace w1) ("Client #" +:+ client_id +:+ " joined")
                 (Snapshot w1)) w1 in
  websocket_endpoint T turns ws client_id w
  = match message_loop T turns ws client_id w2 with
    | (Normal p, w3) => (Normal p, w3)
    | (Raised e, w3) => on_exception T ws client_id e w3
    end.
Proof.
  intros Hacc w1 w2. unfold websocket_endpoint. unfold bind at 1.
  rewrite connect_eq, Hacc. fold w1. unfold try_except. unfold bind at 1.
  rewrite broadcast_eq, eligible_nobody_excluded. by fold w2.
Qed.






(** X11.  Whichever [except] clause is taken, the departure notice is
    written exactly once to every connection that was registered other
    than the one leaving, and the handler writes nothing else: nothing to
    the connection that leaves, nothing to a connection outside the
    registry. *)
Theorem departure_notice_goes_to_the_others
    (T : Transport) (ws : nat) (client_id : string) (e : Exn)
    (w : World) (c : nat) :
  let evs := new_events w (on_exception T ws client_id e w).2 in
  writes_of c (departure_text client_id e) evs
  = (if bool_decide (c ∈ active_connections w /\ c <> ws) then 1 else 0)
  /\ writes_to c evs = writes_of c (departure_text client_id e) evs.
Proof.
  intros evs. subst evs.
  destruct (on_exception_facts T ws client_id e w) as (_ & _ & Htr).
  cbv zeta in Htr. rewrite (new_events_of_trace _ _ _ Htr).
  unfold writes_to, writes_of. rewrite !count_events_app.
  fold (writes_to c) (writes_of c (departure_text client_id e)).
  assert (writes_to c (closing_events T ws e (trace w)) = 0) as ->
    by (by destruct e).
  assert (writes_of c (departure_text client_id e)
            (closing_events T ws e (trace w)) = 0) as ->
    by (by destruct e).
  rewrite fanout_writes_to, fanout_writes_of.
  split; [|done]. simpl.
  rewrite count_in_NoDup by apply NoDup_elements.
  apply (f_equal (fun b : bool => if b then 1 else 0)).
  apply bool_decide_ext.
  rewrite elem_of_elements, elem_of_difference, elem_of_singleton. done.
Qed.

(** X16.  After an error that is not a disconnect the handler logs it and
    tries to close the connection, once and before anything else; whether
    or not the close raises, the connection is deregistered afterwards (the
    departure notice of X11 follows), and what the close raised, if it
    did, is raised by the endpoint's handler in the end. *)
Theorem error_path_closes_then_cleans_up
    (T : Transport) (ws : nat) (client_id what : string) (w : World) :
  let out := on_exception T ws client_id (RuntimeError what) w in
  let o := close_outcome T (trace w) ws in
  out.1 = match o with
          | None => Normal Returned
          | Some e' => Raised e'
          end
  /\ (exists notice,
        new_events w out.2 = EvClose ws o :: notice
        /\ other_events notice = 0)
  /\ active_connections out.2 = active_connections w ∖ {[ws]}
  /\ journal out.2
     = journal w
       ++ [LogException "Unexpected error: %s" (RuntimeError what);
           LogInfo "Client disconnected. Active=%d"
             (size (active_connections w ∖ {[ws]}))].
Proof.
  intros out o. subst out o.
  destruct (on_exception_facts T ws client_id (RuntimeError what) w)
    as (Hres & Hact & Htr).
  cbv zeta in Hres, Hact, Htr. cbn [closing_events] in Hres, Htr.
  split; [rewrite Hres; by destruct (close_outcome T (trace w) ws)|].
  split.
  { eexists. split; [exact (new_events_of_trace _ _ _ Htr)|].
    apply fanout_other_events. }
  split; [exact Hact|].
  unfold on_exception, bind, log_exception, try_finally, close, ret.
  cbv iota beta zeta. unfold bind. rewrite disconnect_eq. cbv iota beta.
  rewrite broadcast_eq.
  cbn. destruct (close_outcome T (trace w) ws); cbn; by rewrite <- app_assoc.
Qed.

(** X12.  When the accept raises, the exception leaves the endpoint at
    once: [connect] stands before the [try], so the client is not
    registered, no notice is written to anybody and nothing is logged. *)
Theorem failed_accept_ends_the_endpoint
    (T : Transport) (turns : nat) (ws : nat) (client_id : string)
    (w : World) (e : Exn) :
  accept_outcome T (trace w) ws = Some e ->
  websocket_endpoint T turns ws client_id w
  = (Raised e, emit (EvAccept ws (Some e)) w).
Proof.
  intros Hacc. unfold websocket_endpoint. unfold bind at 1.
  by rewrite connect_eq, Hacc.
Qed.

Lemma failed_accept_ends_the_endpoint_witness :
  accept_outcome accept_once (trace D_accepted) conn_D
  = Some (RuntimeError "unexpected websocket.accept")
  /\ websocket_endpoint accept_once 1 conn_D "D" D_accepted
     = (Raised (RuntimeError "unexpected websocket.accept"),
        emit (EvAccept conn_D
                (Some (RuntimeError "unexpected websocket.accept")))
             D_accepted).
Proof.
  split; [reflexivity|].
  exact (failed_accept_ends_the_endpoint accept_once 1 conn_D "D" D_accepted
           (RuntimeError "unexpected websocket.accept") eq_refl).
Defined.

Lemma broadcast_writes_not_to_sender (ws : nat) message fan text :
  Forall (broadcast_write ws message) fan -> writes_of ws text fan = 0.
Proof.
  induction 1 as [|ev l (x & o & -> & Hne) Hl IH]; [done|].
  unfold writes_of in *. simpl. rewrite IH.
  by rewrite (bool_decide_eq_false_2 (x = ws)) by done.
Qed.

Lemma served_in_order_no_own_line ws client_id evs data :
  served_in_order ws client_id evs ->
  writes_of ws ("Client #" +:+ client_id +:+ " says: " +:+ data) evs = 0.
Proof.
  assert (forall data0,
    "You wrote: " +:+ data0
    <> "Client #" +:+ client_id +:+ " says: " +:+ data)
    as Hecho by (intros data0; simpl; discriminate).
  induction 1 as [|e|data0 e|data0 fan rest Hfan Hrest IH].
  - done.
  - done.
  - unfold writes_of. cbn [count_events is_write_of].
    by rewrite (bool_decide_eq_false_2 _ (Hecho data0)), andb_false_r.
  - change (EvReceiveText ws (inl data0)
              :: EvSendText ws ("You wrote: " +:+ data0) None :: fan ++ rest)
      with ([EvReceiveText ws (inl data0);
             EvSendText ws ("You wrote: " +:+ data0) None] ++ fan ++ rest).
    rewrite !writes_of_app, IH.
    rewrite (broadcast_writes_not_to_sender ws _ fan _ Hfan).
    unfold writes_of. cbn [count_events is_write_of].
    by rewrite (bool_decide_eq_false_2 _ (Hecho data0)), andb_false_r.
Qed.

(** The socket history of an endpoint whose accept succeeded: the accept,
    the join notice, the turns of the loop and, if the loop raised, what
    the handler did. *)
Lemma websocket_endpoint_history
    (T : Transport) (turns : nat) (ws : nat) (client_id : string)
    (w : World) :
  accept_outcome T (trace w) ws = None ->
  exists evs hevs,
    trace (websocket_endpoint T turns ws client_id w).2
    = trace w
      ++ [EvAccept ws None]
      ++ fanout T (trace w ++ [EvAccept ws None])
           ("Client #" +:+ client_id +:+ " joined")
           (elements ({[ws]} ∪ active_connections w))
      ++ evs ++ hevs
    /\ served_in_order ws client_id evs
    /\ (hevs = []
        \/ exists e h targets,
             hevs = closing_events T ws e h
                    ++ fanout T (h ++ closing_events T ws e h)
                         (departure_text client_id e) targets).
Proof.
  intros Hacc.
  rewrite (websocket_endpoint_joined T turns ws client_id w Hacc).
  cbv zeta.
  match goal with
  | |- context [message_loop T turns ws client_id ?w2] =>
      destruct (message_loop_events T turns ws client_id w2)
        as (evs & Hloop & Hshape);
      destruct (message_loop T turns ws client_id w2) as [[p|e] w3]
  end; simpl in Hloop; subst w3.
  - exists evs, []. split; [|split; [done | by left]].
    simpl. by rewrite app_nil_r, <- !app_assoc.
  - match goal with
    | |- context [on_exception T ws client_id e ?w3] =>
        set (w4 := w3);
        destruct (on_exception_facts T ws client_id e w4) as (_ & _ & Htr)
    end.
    cbv zeta in Htr.
    exists evs,
      (closing_events T ws e (trace w4)
         ++ fanout T (trace w4 ++ closing_events T ws e (trace w4))
              (departure_text client_id e)
              (elements (active_connections w4 ∖ {[ws]}))).
    split; [|split; [done | right; by eexists e, _, _]].
    rewrite Htr. subst w4. unfold Snapshot. simpl.
    by rewrite <- !app_assoc.
Qed.

(** X13.  The endpoint never writes a client's own chat line to that
    client: of all that it writes to its own socket, nothing is a
    "Client #... says: ..." of this client, whatever the transport does
    and however the endpoint ends. *)
Theorem endpoint_never_sends_own_line
    (T : Transport) (turns : nat) (ws : nat) (client_id : string)
    (w : World) (data : string) :
  writes_of ws ("Client #" +:+ client_id +:+ " says: " +:+ data)
    (new_events w (websocket_endpoint T turns ws client_id w).2) = 0.
Proof.
  destruct (accept_outcome T (trace w) ws) as [e|] eqn:Hacc.
  { unfold websocket_endpoint. unfold bind at 1.
    rewrite connect_eq, Hacc. simpl snd.
    by rewrite emit_add_events, new_events_add_events. }
  assert ("Client #" +:+ client_id +:+ " joined"
          <> "Client #" +:+ client_id +:+ " says: " +:+ data) as Hjoin.
  { intros H. do 2 apply append_cancel in H. discriminate H. }
  assert (forall e, departure_text client_id e
          <> "Client #" +:+ client_id +:+ " says: " +:+ data) as Hleave.
  { intros [|what] H; unfold departure_text in H;
      do 2 apply append_cancel in H; discriminate H. }
  destruct (websocket_endpoint_history T turns ws client_id w Hacc)
    as (evs & hevs & Htr & Hshape & Hh).
  rewrite (new_events_of_trace _ _ _ Htr).
  rewrite !writes_of_app, fanout_writes_of_other_text by done.
  rewrite (served_in_order_no_own_line ws client_id evs data Hshape).
  destruct Hh as [-> | (e & h & targets & ->)]; [done|].
  rewrite writes_of_app, fanout_writes_of_other_text by done.
  by destruct e.
Qed.

(** X14.  Serving messages changes neither the registry nor the log: the
    loop only adds to the socket history. *)
Theorem message_loop_keeps_registry_and_log
    (T : Transport) (turns : nat) (ws : nat) (client_id : string)
    (w : World) :
  let w' := (message_loop T turns ws client_id w).2 in
  active_connections w' = active_connections w
  /\ journal w' = journal w
  /\ trace w' = trace w ++ new_events w w'.
Proof.
  intros w'. subst w'.
  destruct (message_loop_events T turns ws client_id w) as (evs & -> & _).
  by rewrite new_events_add_events.
Qed.

(** X15.  The loop of a connection is ended only by that connection's
    own read or echo: when the loop raises, the last thing in its history
    is the read that raised, or the echo that raised right after its
    read.  The writes of a broadcast to the others, failed or not, never
    end it. *)
Theorem message_loop_ends_by_own_failure
    (T : Transport) (turns : nat) (ws : nat) (client_id : string)
    (w : World) (e : Exn) :
  (message_loop T turns ws client_id w).1 = Raised e ->
  exists before,
    new_events w (message_loop T turns ws client_id w).2
    = before ++ [EvReceiveText ws (inr e)]
    \/ exists data,
         new_events w (message_loop T turns ws client_id w).2
         = before ++ [EvReceiveText ws (inl data);
                      EvSendText ws ("You wrote: " +:+ data) (Some e)].
Proof.
  revert w. induction turns as [|n IH]; intros w; cbn [message_loop].
  - unfold ret. simpl. discriminate.
  - unfold bind at 1 2 3. rewrite serve_message_eq.
    destruct (receive_text_outcome T (trace w) ws) as [data|e0].
    + cbv zeta.
      destruct (send_text_outcome T _ ws ("You wrote: " +:+ data))
        as [e0|].
      * simpl fst. intros [= ->]. exists []. right. exists data.
        simpl snd. by rewrite new_events_add_events.
      * match goal with
        | |- context [message_loop T n ws client_id ?w1] =>
            intros Hraised;
            destruct (IH w1 Hraised) as (before & Hlast);
            destruct (message_loop_events T n ws client_id w1)
              as (evs & Hloop & _)
        end.
        rewrite Hloop in Hlast |- *.
        rewrite new_events_add_events in Hlast.
        rewrite add_events_app, new_events_add_events.
        eexists (_ ++ before).
        destruct Hlast as [-> | (data' & ->)]; [left | right; exists data'];
          by rewrite <- app_assoc.
    + simpl fst. intros [= ->]. exists []. left.
      simpl snd. by rewrite new_events_add_events.
Qed.

Lemma message_loop_ends_by_own_failure_witness :
  (message_loop (B_is_dead 2) 3 conn_A "A" room_ABC).1
  = Raised WebSocketDisconnect
  /\ exists before,
       new_events room_ABC
         (message_loop (B_is_dead 2) 3 conn_A "A" room_ABC).2
       = before ++ [EvReceiveText conn_A (inr WebSocketDisconnect)]
       \/ exists data,
            new_events room_ABC
              (message_loop (B_is_dead 2) 3 conn_A "A" room_ABC).2
            = before ++ [EvReceiveText conn_A (inl data);
                         EvSendText conn_A ("You wrote: " +:+ data)
                           (Some WebSocketDisconnect)].
Proof.
  assert ((message_loop (B_is_dead 2) 3 conn_A "A" room_ABC).1
          = Raised WebSocketDisconnect) as Hraised
    by (vm_compute; reflexivity).
  split; [exact Hraised|].
  exact (message_loop_ends_by_own_failure (B_is_dead 2) 3 conn_A "A"
           room_ABC WebSocketDisconnect Hraised).
Defined.
